(** * Idioms: custom operators and predicated construction

    A verification development for two C++ headers:

    - [custom_ops.hpp]: "(almost) custom operators", a compile-time encoding
      of a run of prefix operators as a chain of nested [wrapped<T, Tag>]
      types, dispatched by overload resolution to one implementation;
    - the predicated-constructor header: conditional placement construction
      of a scope-local object in aligned raw storage, with a guard that
      destroys it at scope exit.

    C++ types are data ([ty]); the metafunctions of the header are functions
    on [ty]; the objects the operators build are records indexed by their
    C++ type; the effects (a call of the user's implementation, a run of a
    constructor or destructor) are threaded through small state monads. *)

From Stdlib Require Import List String Bool Arith NArith Lia Eqdep_dec.
Import ListNotations.
Open Scope string_scope.
Open Scope list_scope.

Set Implicit Arguments.

(* ================================================================== *)
(** * custom_ops.hpp *)
(* ================================================================== *)

Module CustomOps.

(** ** C++ types

    Class types are nominal: two structs are the same type exactly when
    they have the same name.  [Wrapped], [TypeFinderImpl] and
    [CopReferenceWrapper] are the header's class templates,
    [ReferenceWrapper] is [boost::reference_wrapper], and [TagFromOp] is
    the unnamed struct of which [tag_from_op] is the one object. *)
Inductive ty : Type :=
| Struct (name : string)
| Fundamental (name : string)
| Pointer (T : ty)
| Reference (T : ty)
| Const (T : ty)
| Wrapped (T Tag : ty)
| TypeFinderImpl (T : ty)
| ReferenceWrapper (T : ty)
| CopReferenceWrapper (T : ty)
| TagFromOp.

Definition ty_eq_dec (x y : ty) : {x = y} + {x <> y}.
Proof. decide equality; apply string_dec. Defined.

Definition ty_eqb (x y : ty) : bool :=
  if ty_eq_dec x y then true else false.

(** ** The eight tags (lines 124-131) *)
Definition plus_tag : ty := Struct "plus_tag".
Definition minus_tag : ty := Struct "minus_tag".
Definition amp_tag : ty := Struct "amp_tag".
Definition asterisk_tag : ty := Struct "asterisk_tag".
Definition increment_tag : ty := Struct "increment_tag".
Definition decrement_tag : ty := Struct "decrement_tag".
Definition excl_tag : ty := Struct "excl_tag".
Definition tilde_tag : ty := Struct "tilde_tag".

Definition tag_types : list ty :=
  [plus_tag; minus_tag; amp_tag; asterisk_tag;
   increment_tag; decrement_tag; excl_tag; tilde_tag].

(** ** The supported prefix operators: + - & * ++ -- ! ~ *)
Inductive unop : Type :=
| op_plus | op_minus | op_amp | op_asterisk
| op_increment | op_decrement | op_excl | op_tilde.

Definition unop_eq_dec (x y : unop) : {x = y} + {x <> y}.
Proof. decide equality. Defined.

(** [BOOST_COPS_ITERATE_OPS(F)] expands to
    [F(+) F(-) F(&) F( * ) F(++) F(--) F(!) F(~)] (line 146). *)
Definition BOOST_COPS_ITERATE_OPS {A : Type} (F : unop -> A) : list A :=
  [F op_plus; F op_minus; F op_amp; F op_asterisk;
   F op_increment; F op_decrement; F op_excl; F op_tilde].

(** The operators of the unnamed struct [tag_from_op] (lines 133-143):
    the return type of each. *)
Definition tag_from_op (OP : unop) : ty :=
  match OP with
  | op_plus => plus_tag
  | op_minus => minus_tag
  | op_amp => amp_tag
  | op_asterisk => asterisk_tag
  | op_increment => increment_tag
  | op_decrement => decrement_tag
  | op_excl => excl_tag
  | op_tilde => tilde_tag
  end.

(** [BOOST_COPS_OPTAG(OP)] is [BOOST_TYPEOF(OP tag_from_op)]: the static
    type of the expression, that is the return type of the operator. *)
Definition BOOST_COPS_OPTAG (OP : unop) : ty := tag_from_op OP.

(** ** [unwrap] (lines 154-164)

    The primary template is the identity; the partial specialisation
    matches [wrapped<W, Tag>] exactly (not a cv-qualified or reference
    type built on it) and recurses on [W]. *)
Fixpoint unwrap (W : ty) : ty :=
  match W with
  | Wrapped W' _ => unwrap W'
  | _ => W
  end.

(** [wrapped<T, Tag>::type] (line 169). *)
Definition wrapped_type (T Tag : ty) : ty := unwrap T.

Definition is_wrapped (W : ty) : bool :=
  match W with
  | Wrapped _ _ => true
  | _ => false
  end.

(** The nested wrapper [wrapped<...wrapped<T, Tag1>..., Tagn>]: one level
    per tag, the first tag innermost. *)
Fixpoint nest (T : ty) (tags : list ty) : ty :=
  match tags with
  | [] => T
  | Tag :: tags' => nest (Wrapped T Tag) tags'
  end.

(** The number of wrapper levels on top of the innermost type. *)
Fixpoint wrap_depth (W : ty) : nat :=
  match W with
  | Wrapped W' _ => S (wrap_depth W')
  | _ => 0
  end.

(** ** [type_finder_impl] (lines 183-202)

    [type_finder_impl<T>::type] is [T]; each of the eight member operators
    returns [type_finder_impl<wrapped<T, BOOST_COPS_OPTAG(OP)>>]. *)
Definition type_finder_impl_type (T : ty) : ty := T.

Definition BOOST_COPS_MAKE_TYPE_FINDER (OP : unop) (T : ty) : ty :=
  TypeFinderImpl (Wrapped T (BOOST_COPS_OPTAG OP)).

(** [type_finder<T>::f] has type [type_finder_impl<T>]. *)
Definition type_finder_f (T : ty) : ty := TypeFinderImpl T.

(** ** The wrapping operators (lines 204-211): result type of
    [operator OP (wrapped<T, Tag> w)]. *)
Definition BOOST_COPS_MAKE_WRAPPING_OPERATORS (OP : unop) (T Tag : ty) : ty :=
  Wrapped (Wrapped T Tag) (BOOST_COPS_OPTAG OP).

(** ** Static types of prefix-operator expressions

    The static type of [OP x] for [x] of type [X], when the operator is
    one the header declares: a member operator of the struct of
    [tag_from_op] or of [type_finder_impl], or a free wrapping operator
    template, whose parameter [wrapped<T, Tag>] is deduced from the
    operand.  [None]: the header declares no prefix operator for such an
    operand (the built-in operators and the operators of the operand's
    own class are not the header's, and are not looked at here). *)
Definition typeof_unary (OP : unop) (X : ty) : option ty :=
  match X with
  | TagFromOp => Some (tag_from_op OP)
  | TypeFinderImpl T => Some (BOOST_COPS_MAKE_TYPE_FINDER OP T)
  | Wrapped T Tag => Some (BOOST_COPS_MAKE_WRAPPING_OPERATORS OP T Tag)
  | _ => None
  end.

(** A run of prefix operators is kept in the order it is written;
    [op1 op2 ... opk x] applies [opk] first. *)
Fixpoint typeof_prefix (ops : list unop) (X : ty) : option ty :=
  match ops with
  | [] => Some X
  | OP :: ops' =>
      match typeof_prefix ops' X with
      | Some Y => typeof_unary OP Y
      | None => None
      end
  end.

(** The member typedef [type] of a class type of the header. *)
Definition member_type (X : ty) : option ty :=
  match X with
  | TypeFinderImpl T => Some (type_finder_impl_type T)
  | Wrapped T Tag => Some (wrapped_type T Tag)
  | _ => None
  end.

(** ** [reasonable_type_for_unary_operator_overload] (lines 227-241) *)
Definition is_reference (T : ty) : bool :=
  match T with Reference _ => true | _ => false end.

Definition remove_reference (T : ty) : ty :=
  match T with Reference T' => T' | _ => T end.

Definition add_const (T : ty) : ty :=
  match T with
  | Const _ | Reference _ => T
  | _ => Const T
  end.

(** Boost's [is_fundamental] and [is_pointer] look through cv-qualifiers. *)
Fixpoint is_fundamental (T : ty) : bool :=
  match T with
  | Fundamental _ => true
  | Const T' => is_fundamental T'
  | _ => false
  end.

Fixpoint is_pointer (T : ty) : bool :=
  match T with
  | Pointer _ => true
  | Const T' => is_pointer T'
  | _ => false
  end.

Definition reasonable_type_for_unary_operator_overload (T_ : ty) : ty :=
  let T := if is_reference T_ then remove_reference T_ else add_const T_ in
  if is_fundamental T || is_pointer T then CopReferenceWrapper T else T_.

(** The member typedef [T] of the metafunction (lines 230-234): the
    referred type of a reference, the const-qualified type otherwise. *)
Definition reasonable_T (T_ : ty) : ty :=
  if is_reference T_ then remove_reference T_ else add_const T_.

(** ** [BOOST_CUSTOM_OP]: the declarations one use of the macro generates *)

(** The arguments of one use of the macro.  [binop] is the text the macro
    pastes after [operator]; [lastop] is the macro's parameter [firstop]
    (the synopsis calls it lastop: last written, first applied). *)
Record custom_op : Type := BOOST_CUSTOM_OP {
  rettype : ty;
  param1type : ty;
  binop : string;
  ops : list unop;
  firstop : unop;
  param2type : ty
}.

(** Line 247: parameter and result type of the generated unary operator. *)
Definition unary_param_type (d : custom_op) : ty :=
  reasonable_type_for_unary_operator_overload (param2type d).

Definition unary_result_type (d : custom_op) : ty :=
  Wrapped (param2type d) (BOOST_COPS_OPTAG (firstop d)).

(** Line 252: the type of the second parameter of the generated binary
    operator, [BOOST_TYPEOF(ops firstop type_finder<param2type>::f)::type]. *)
Definition binary_param2_type (d : custom_op) : option ty :=
  match typeof_prefix (ops d ++ [firstop d]) (type_finder_f (param2type d)) with
  | Some X => member_type X
  | None => None
  end.



(** An operand whose declared type is [X] initialises a parameter
    declared with the same type [P], or goes through the converting
    constructor of [cop_reference_wrapper] (line 222) from a
    [reference_wrapper].  This compares declared types only; how an
    object of type [B] binds to a parameter [const B&] is [binds] below. *)
Definition initialises (X P : ty) : bool :=
  ty_eqb X P ||
  match X, P with
  | ReferenceWrapper T, CopReferenceWrapper T' => ty_eqb T T'
  | _, _ => false
  end.

(** Static type of [OP x] when the candidates are the operator generated
    for [d] and the header's operators, and no others: the generated
    unary operator, a non-template, is chosen when it is viable; otherwise
    the header's operators apply.  Built-in operators and the operators
    of the operand's own class are not candidates here; [unary_verdict]
    below takes them into account at the call site. *)
Definition typeof_unary_in (d : custom_op) (OP : unop) (X : ty) : option ty :=
  if unop_eq_dec OP (firstop d) then
    if initialises X (unary_param_type d) then Some (unary_result_type d)
    else typeof_unary OP X
  else typeof_unary OP X.

Fixpoint typeof_prefix_in (d : custom_op) (run : list unop) (X : ty) : option ty :=
  match run with
  | [] => Some X
  | OP :: run' =>
      match typeof_prefix_in d run' X with
      | Some Y => typeof_unary_in d OP Y
      | None => None
      end
  end.

Definition option_ty_eqb (x : option ty) (y : option ty) : bool :=
  match x, y with
  | Some a, Some b => ty_eqb a b
  | _, _ => false
  end.

(** Does [a used_binop used_run b], with [a] of the first parameter type
    and [b] of static type [X], select the binary operator generated for
    [d], the prefix operators being resolved among the generated and the
    header's operators only?  The operator is viable when its name is the
    one used and the static type of the right operand is its second
    parameter type: no conversion leads to a [wrapped], whose
    constructors are explicit. *)
Definition resolves (d : custom_op) (X : ty)
    (used_binop : string) (used_run : list unop) : bool :=
  (if string_dec used_binop (binop d) then true else false) &&
  option_ty_eqb (typeof_prefix_in d used_run X) (binary_param2_type d).

(** The classes of the header that have prefix operators. *)
Definition is_header_class (X : ty) : bool :=
  match X with
  | Wrapped _ _ | TypeFinderImpl _ | TagFromOp => true
  | _ => false
  end.


(** ** The call site

    The operands of an expression are named objects, so lvalues.  The
    expression that names an object declared with type [T] has the type
    [T] without its reference. *)
Definition remove_const (T : ty) : ty :=
  match T with Const T' => T' | _ => T end.

Definition expression_type (T : ty) : ty := remove_reference T.

(** An lvalue of type [E] initialises a parameter of type [P] with no
    conversion: [const T&] binds to a [T] and to a [const T], [T&] to a
    [T] that is not const, and a parameter passed by value is a copy of
    an object of its type, const or not. *)
Definition binds (E P : ty) : bool :=
  match P with
  | Reference (Const T) => ty_eqb (remove_const E) T
  | Reference T => ty_eqb E T
  | Const T => ty_eqb (remove_const E) T
  | _ => ty_eqb (remove_const E) P
  end.

(** [cop_reference_wrapper(reference_wrapper<T> w)] (line 222): the one
    user-defined conversion the header adds, from what [boost::ref] and
    [boost::cref] return. *)
Definition converts (E P : ty) : bool :=
  match remove_const E, P with
  | ReferenceWrapper T, CopReferenceWrapper T' => ty_eqb T T'
  | _, _ => false
  end.

(** The prefix operators a class has of its own, which compete with the
    generated one (lines 36-39 of the header's text): [own] tells, for
    the classes of the program that uses the header, whether the class
    of that name declares a prefix operator [OP], as a member or as a
    free function on that class; the struct of [tag_from_op] and
    [type_finder_impl] have the eight as members.  [wrapped] has only
    the header's templates, to which a non-template is preferred, and
    the reference wrappers have none. *)
Definition has_own_unary (own : string -> unop -> bool) (C : ty) (OP : unop)
  : bool :=
  match C with
  | Struct n => own n OP
  | TypeFinderImpl _ | TagFromOp => true
  | _ => false
  end.

(** Through [reference_wrapper<T>::operator T&] a built-in operator can
    take the operand of a generated operator that takes a
    [cop_reference_wrapper<T>], [T] being fundamental or a pointer.
    [false]: no built-in [OP] does (the built-in [&] is no candidate
    once an overloaded one is viable, [*] needs a pointer, [-] and [~]
    an arithmetic type); [true]: one may, according to [T]. *)
Definition builtin_may_apply (T : ty) (OP : unop) : bool :=
  match OP with
  | op_amp => false
  | op_asterisk => is_pointer T
  | op_minus | op_tilde => is_fundamental T
  | _ => true
  end.

(** What overload resolution makes of an operator generated for a
    definition, at a call: it is the function called; it is not; or this
    model does not decide (a competing operator is in play, or a
    conversion this model does not follow). *)
Inductive verdict : Type :=
| selected
| not_selected
| undecided.

(** [lastop b] for [b] of type [E], the operator being the last one of
    [d]: the generated unary operator is called when [b] initialises its
    parameter with no conversion and the class of [b] has no such
    operator of its own, or when [b] is a [reference_wrapper<T>] and no
    built-in operator takes a [T]; on an operand of fundamental or
    pointer type the built-in operator is the only one there is. *)
Definition unary_verdict (own : string -> unop -> bool) (d : custom_op) (E : ty)
  : verdict :=
  if binds E (unary_param_type d) then
    if has_own_unary own (remove_const E) (firstop d) then undecided
    else selected
  else if converts E (unary_param_type d) then
    match remove_const E with
    | ReferenceWrapper T =>
        if builtin_may_apply T (firstop d) then undecided else selected
    | _ => undecided
    end
  else if is_fundamental E || is_pointer E then not_selected
  else undecided.

(** The operators that can be overloaded as free functions of two
    parameters, with their alternative spellings: the others ([=],
    [[]], [()], [->]) must be members, and the macro declares a free
    function. *)
Definition free_binary_operators : list string :=
  ["+"; "-"; "*"; "/"; "%"; "^"; "&"; "|"; "<"; ">"; "<<"; ">>";
   "=="; "!="; "<="; ">="; "&&"; "||"; ","; "->*";
   "+="; "-="; "*="; "/="; "%="; "^="; "&="; "|="; "<<="; ">>=";
   "and"; "or"; "xor"; "bitand"; "bitor"; "not_eq";
   "and_eq"; "or_eq"; "xor_eq"].

Definition free_binary_operator (b : string) : bool :=
  existsb (String.eqb b) free_binary_operators.

Definition is_void (T : ty) : bool :=
  ty_eqb (remove_const T) (Fundamental "void").

(** The generated binary operator is a function that can be declared,
    with a body that compiles: [binop] can be overloaded by a free
    function, no parameter is of type [void], and [b.value], of type
    [unwrap<param2type>::type], initialises the second parameter of the
    implementation, which it does when the second parameter type is not
    a [wrapped] itself (the constructors of [wrapped] are explicit). *)
Definition binary_operator_well_formed (d : custom_op) : bool :=
  free_binary_operator (binop d) &&
  negb (is_void (param1type d)) &&
  negb (is_void (param2type d)) &&
  ty_eqb (unwrap (param2type d)) (param2type d).

(** [a binop ops lastop b], with [a] declared with the first parameter
    type and [b] an lvalue of type [E]: once [lastop b] is the generated
    unary operator, the intermediate operators apply to [wrapped]
    objects, which only the header's wrapping operators take, and the
    generated binary operator is called when it is well formed and the
    static type of its right operand is the type it declares.  The
    programs of this model declare no other operator [binop] that a
    [wrapped] could be passed to. *)
Definition expression_verdict (own : string -> unop -> bool) (d : custom_op)
    (E : ty) : verdict :=
  match unary_verdict own d E with
  | selected =>
      if binary_operator_well_formed d &&
         option_ty_eqb (typeof_prefix (ops d) (unary_result_type d))
           (binary_param2_type d)
      then selected else not_selected
  | v => v
  end.

(** The full example of the header:
    [BOOST_CUSTOM_OP(int, const A&, a, /, ~+, -, const B&, b)]. *)
Definition example_op : custom_op :=
  BOOST_CUSTOM_OP (Fundamental "int") (Reference (Const (Struct "A")))
    "/" [op_tilde; op_plus] op_minus (Reference (Const (Struct "B"))).

(** The same operator with a fundamental second parameter type:
    [BOOST_CUSTOM_OP(int, const A&, a, /, ~+, -, int, b)]. *)
Definition int_op : custom_op :=
  BOOST_CUSTOM_OP (Fundamental "int") (Reference (Const (Struct "A")))
    "/" [op_tilde; op_plus] op_minus (Fundamental "int").

(** And with [*] as the last operator, which no built-in operator gives
    to an [int]: [BOOST_CUSTOM_OP(int, const A&, a, /, ~+, *, int, b)]. *)
Definition int_star_op : custom_op :=
  BOOST_CUSTOM_OP (Fundamental "int") (Reference (Const (Struct "A")))
    "/" [op_tilde; op_plus] op_asterisk (Fundamental "int").

(** ** Objects

    [sem T] is the carrier of the values of the C++ type [T]. *)
Section Values.

Variable sem : ty -> Type.

(** What becomes of an expression that is meant to call the user's
    implementation: it does, as the computation [m]; it does not; or the
    model does not decide. *)
Inductive outcome (A : Type) : Type :=
| reaches (m : A)
| does_not_reach
| not_decided.

(** The prefix operators the classes of the user's program have of their
    own. *)
Variable own : string -> unop -> bool.

(** [wrapped<T, Tag>] (lines 166-179): one data member, [type value]. *)
Record wrapped (T Tag : ty) : Type := mk_wrapped {
  value : sem (wrapped_type T Tag)
}.

(** [explicit wrapped(type t) : value(t)] *)
Definition wrapped_of_type (T Tag : ty) (t : sem (wrapped_type T Tag))
  : wrapped T Tag :=
  mk_wrapped T Tag t.

(** [explicit wrapped(wrapped<U, Tag> u) : value(u.value)], at the
    instance the wrapping operators use: the new object has type
    [wrapped<wrapped<U, Tag'>, Tag>], whose [type] is [unwrap<U>::type],
    the type of [u.value]. *)
Definition wrapped_of_wrapped (U Tag' : ty) (Tag : ty) (u : wrapped U Tag')
  : wrapped (Wrapped U Tag') Tag :=
  mk_wrapped (Wrapped U Tag') Tag (value u).

(** Lines 204-209: [operator OP (wrapped<T, Tag> w)]. *)
Definition wrapping_operator (OP : unop) (T Tag : ty) (w : wrapped T Tag)
  : wrapped (Wrapped T Tag) (BOOST_COPS_OPTAG OP) :=
  wrapped_of_wrapped (BOOST_COPS_OPTAG OP) w.

(** A wrapped object together with its static type. *)
Record wrapped_object : Type := pack {
  static_T : ty;
  static_Tag : ty;
  the_wrapped : wrapped static_T static_Tag
}.

Definition static_type (x : wrapped_object) : ty :=
  Wrapped (static_T x) (static_Tag x).

(** [op1 op2 ... opk x]: the wrapping operators applied right to left. *)
Fixpoint apply_prefix (run : list unop) (x : wrapped_object) : wrapped_object :=
  match run with
  | [] => x
  | OP :: run' =>
      pack (wrapping_operator OP (the_wrapped (apply_prefix run' x)))
  end.

(** The identity conversion between two types that are the same.  The
    operands of this evaluator are passed at their own type; an operand
    behind [boost::ref] or [boost::cref] goes through the conversion
    operator of [boost::reference_wrapper], which is not evaluated here. *)
Definition identity_conversion (S D : ty) : option (sem S -> sem D) :=
  match ty_eq_dec S D with
  | left e => Some (fun x => eq_rect S sem x D e)
  | right _ => None
  end.

(** *** One use of the macro *)
Section OneDefinition.

Variable d : custom_op.

(** [boost_custom_ops_implementation_ ## __LINE__], the user's body. *)
Variable boost_custom_ops_implementation_ :
  sem (param1type d) -> sem (param2type d) -> sem (rettype d).

(** The calls of the implementation are logged. *)
Record call : Type := mk_call {
  call_a : sem (param1type d);
  call_b : sem (param2type d)
}.

(** A computation that may call the implementation: from the log so far
    to a result and the log after. *)
Definition M (X : Type) : Type := list call -> X * list call.

Definition invoke (a : sem (param1type d)) (b : sem (param2type d))
  : M (sem (rettype d)) :=
  fun log => (boost_custom_ops_implementation_ a b, log ++ [mk_call a b]).

(** Lines 247-250: the generated unary operator.  Its argument [w]
    initialises the constructor parameter [type t]. *)
Definition operator_firstop (w : sem (unary_param_type d))
  : option (wrapped (param2type d) (BOOST_COPS_OPTAG (firstop d))) :=
  match identity_conversion (unary_param_type d)
          (wrapped_type (param2type d) (BOOST_COPS_OPTAG (firstop d))) with
  | Some to_type => Some (wrapped_of_type _ _ (to_type w))
  | None => None
  end.

(** Lines 252-255: the generated binary operator, selected when the
    static type of the right operand is its second parameter type;
    [b.value] initialises the second parameter of the implementation. *)
Definition operator_binop (a : sem (param1type d)) (b : wrapped_object)
  : option (M (sem (rettype d))) :=
  if option_ty_eqb (Some (static_type b)) (binary_param2_type d) then
    match identity_conversion
            (wrapped_type (static_T b) (static_Tag b)) (param2type d) with
    | Some to_param2 => Some (invoke a (to_param2 (value (the_wrapped b))))
    | None => None
    end
  else None.

(** The expression [a binop ops lastop b] for operands declared with the
    two parameter types.  Overload resolution comes first
    ([expression_verdict]): [lastop b] is the generated unary operator
    when [b] initialises its parameter and its class has no such
    operator of its own.  Then the generated unary operator wraps [b],
    the intermediate operators wrap the result, and the binary operator
    takes the outermost wrapper and calls the implementation. *)
Definition custom_expression (a : sem (param1type d)) (b : sem (param2type d))
  : outcome (M (sem (rettype d))) :=
  match expression_verdict own d (expression_type (param2type d)) with
  | selected =>
      match identity_conversion (param2type d) (unary_param_type d) with
      | Some to_w =>
          match operator_firstop (to_w b) with
          | Some w =>
              match operator_binop a (apply_prefix (ops d) (pack w)) with
              | Some m => reaches m
              | None => does_not_reach _
              end
          | None => does_not_reach _
          end
      | None => does_not_reach _
      end
  | not_selected => does_not_reach _
  | undecided => not_decided _
  end.

End OneDefinition.

End Values.

End CustomOps.

(* ================================================================== *)
(** * The predicated-constructor header *)
(* ================================================================== *)

Module PredicatedConstructor.

Definition addr : Type := N.

(** [T*]: the null pointer (written [0] in the macros) or the address of
    an object; the address of an object is never the null pointer. *)
Inductive pointer : Type :=
| null
| ptr (a : addr).

(** What a scope does that can be observed: a run of the constructor of
    [obj] at an address, a run of its destructor, and the other statements
    of the scope. *)
Inductive event : Type :=
| construct (a : addr)
| destroy (a : addr)
| statement (n : nat).

(** [boost::aligned_storage<size_, alignment_>::type]: a POD type that has
    this size and this alignment. *)
Record storage_type : Type := mk_storage_type {
  st_size : N;
  st_align : N
}.

Definition aligned_storage (size_ alignment_ : N) : storage_type :=
  mk_storage_type size_ alignment_.

(** The state of the running function: what happened so far and the end
    of the part of the frame its live locals occupy. *)
Record world : Type := mk_world {
  trace : list event;
  frame_top : N
}.

(** Computations; [None] is undefined behaviour. *)
Definition M (A : Type) : Type := world -> option (A * world).

Definition ret {A : Type} (x : A) : M A := fun w => Some (x, w).

Definition bind {A B : Type} (m : M A) (k : A -> M B) : M B :=
  fun w =>
    match m w with
    | Some (x, w') => k x w'
    | None => None
    end.

Definition undefined {A : Type} : M A := fun _ => None.

Definition emit (e : event) : M unit :=
  fun w => Some (tt, mk_world (trace w ++ [e]) (frame_top w)).

Definition get_frame_top : M N := fun w => Some (frame_top w, w).

Definition set_frame_top (top : N) : M unit :=
  fun w => Some (tt, mk_world (trace w) top).

Declare Scope pc_scope.
Delimit Scope pc_scope with pc.
Notation "x <- m ;; k" := (bind m (fun x => k))
  (at level 61, m at next level, right associativity) : pc_scope.
Notation "m ;;; k" := (bind m (fun _ => k))
  (at level 61, right associativity) : pc_scope.
Open Scope pc_scope.

(** ** [predicated_constructee_storage<T>] (lines 77-102) *)
Record predicated_constructee_storage : Type := mk_storage {
  _t : pointer
}.

(** [predicated_constructee_storage(T* t) : _t(t)] *)
Definition predicated_constructee_storage_ctor (t : pointer)
  : predicated_constructee_storage :=
  mk_storage t.

(** [~predicated_constructee_storage() { if (_t) _t->~T(); }] *)
Definition predicated_constructee_storage_dtor (s : predicated_constructee_storage)
  : M unit :=
  match _t s with
  | ptr a => emit (destroy a)
  | null => ret tt
  end.

(** [T* operator -> () const { return _t; }] *)
Definition operator_arrow (s : predicated_constructee_storage) : pointer :=
  _t s.

(** [*p]: the object a pointer points to; there is none behind null. *)
Definition dereference (p : pointer) : option addr :=
  match p with
  | ptr a => Some a
  | null => None
  end.

(** [T& operator * () const { return *_t; }] *)
Definition operator_star (s : predicated_constructee_storage) : option addr :=
  dereference (_t s).

Definition run_statements (body : list nat) : M unit :=
  fun w => Some (tt, mk_world (trace w ++ map statement body) (frame_top w)).

(** ** The macros (lines 109-120) *)
Section Macros.

(** [sizeof(obj)] and [boost::alignment_of<obj>::value]. *)
Variables sizeof_obj alignment_of_obj : N.

(** The address the compiler gives to a local of a storage type when
    the live part of the frame ends at a given address. *)
Variable place : storage_type -> N -> addr.

(** A declaration of a local of trivial type. *)
Definition declare_local (st : storage_type) : M addr :=
  fun w =>
    let a := place st (frame_top w) in
    Some (a, mk_world (trace w) (a + st_size st)).

(** [new (&mem) obj params]: the constructor of [obj] runs on the
    storage at [mem]; the value is the address of the new object. *)
Definition placement_new (mem : addr) : M pointer :=
  emit (construct mem) ;;; ret (ptr mem).

(** The type of the local [_mem_obj ## __LINE__]. *)
Definition mem_type : storage_type :=
  aligned_storage sizeof_obj alignment_of_obj.

(** Its address, [&_mem_obj ## __LINE__], when it is declared in [w]. *)
Definition mem_address (w : world) : addr :=
  place mem_type (frame_top w).

(** The two declarations both macros start with: the raw memory
    [_mem_obj ## __LINE__] and the guard [_storage_obj ## __LINE__],
    initialised with
    [(condition) ? new (&_mem_obj ## __LINE__) obj params : 0].
    The value is the pair of locals left in the scope. *)
Definition storage_declarations (condition : bool)
  : M (addr * predicated_constructee_storage) :=
  mem <- declare_local mem_type ;;
  p <- (if condition then placement_new mem else ret null) ;;
  ret (mem, predicated_constructee_storage_ctor p).

Definition BOOST_PREDICATED_ANONYMOUS_CONSTRUCTOR (condition : bool)
  : M (addr * predicated_constructee_storage) :=
  storage_declarations condition.

(** [BOOST_PREDICATED_CONSTRUCTOR]: the same two declarations, then
    [obj& name = *_storage_obj ## __LINE__]. *)
Definition BOOST_PREDICATED_CONSTRUCTOR (condition : bool)
  : M (addr * predicated_constructee_storage * addr) :=
  locals <- storage_declarations condition ;;
  match operator_star (snd locals) with
  | Some name => ret (locals, name)
  | None => undefined
  end.

(** A block that uses the anonymous macro and goes on with [body]: at
    the closing brace the locals are destroyed in reverse order (the
    storage guard, then the raw memory, which has no destructor) and
    the frame is as it was on entry. *)
Definition anonymous_scope (condition : bool) (body : list nat) : M unit :=
  top <- get_frame_top ;;
  locals <- BOOST_PREDICATED_ANONYMOUS_CONSTRUCTOR condition ;;
  run_statements body ;;;
  predicated_constructee_storage_dtor (snd locals) ;;;
  set_frame_top top.

Definition named_scope (condition : bool) (body : list nat) : M unit :=
  top <- get_frame_top ;;
  locals <- BOOST_PREDICATED_CONSTRUCTOR condition ;;
  run_statements body ;;;
  predicated_constructee_storage_dtor (snd (fst locals)) ;;;
  set_frame_top top.



(** A block with one use of the anonymous predicated macro per condition,
    on successive lines ([__LINE__] keeps the names of the locals apart),
    then [body].  The lifetime of the locals of a use spans the rest of
    the block, so the guards are destroyed in the reverse order of their
    declaration. *)
Fixpoint rest_of_block (conditions : list bool) (body : list nat) : M unit :=
  match conditions with
  | [] => run_statements body
  | condition :: conditions' =>
      locals <- BOOST_PREDICATED_ANONYMOUS_CONSTRUCTOR condition ;;
      rest_of_block conditions' body ;;;
      predicated_constructee_storage_dtor (snd locals)
  end.

Definition block (conditions : list bool) (body : list nat) : M unit :=
  top <- get_frame_top ;;
  rest_of_block conditions body ;;;
  set_frame_top top.

End Macros.

(** Counting the runs of the constructor and of the destructor. *)
Definition is_construct (e : event) : bool :=
  match e with construct _ => true | _ => false end.

Definition is_destroy (e : event) : bool :=
  match e with destroy _ => true | _ => false end.

Definition constructions (tr : list event) : nat :=
  List.length (filter is_construct tr).

Definition destructions (tr : list event) : nat :=
  List.length (filter is_destroy tr).

(** A compiler's placement: the next multiple of the alignment. *)
Definition round_up (st : storage_type) (top : N) : addr :=
  (st_align st * ((top + st_align st - 1) / st_align st))%N.

End PredicatedConstructor.

(* ================================================================== *)
(** * Properties of custom_ops.hpp *)
(* ================================================================== *)

Unset Implicit Arguments.

Module CustomOpsFacts.
Import CustomOps.

(** ** Tags *)

Lemma tag_from_op_in_tag_types (OP : unop) : In (tag_from_op OP) tag_types.
Proof. destruct OP; simpl; tauto. Qed.

Lemma tag_types_iterate : BOOST_COPS_ITERATE_OPS tag_from_op = tag_types.
Proof. reflexivity. Qed.

Lemma tag_types_NoDup : NoDup tag_types.
Proof.
  unfold tag_types.
  repeat (constructor; [simpl; intuition discriminate |]).
  constructor.
Qed.

Lemma tag_from_op_inj (OP1 OP2 : unop) :
  tag_from_op OP1 = tag_from_op OP2 -> OP1 = OP2.
Proof. destruct OP1, OP2; simpl; intro H; try reflexivity; discriminate H. Qed.

Lemma map_tag_from_op_inj (l1 l2 : list unop) :
  map tag_from_op l1 = map tag_from_op l2 -> l1 = l2.
Proof.
  revert l2; induction l1 as [|x l1 IH]; intros [|y l2] H; simpl in H;
    try discriminate; [reflexivity |].
  injection H as Hx Hl. f_equal; [apply tag_from_op_inj, Hx | apply IH, Hl].
Qed.

(** C4: two different prefix operators have different tag types. *)
Theorem tag_from_op_injective (OP1 OP2 : unop) :
  OP1 <> OP2 -> tag_from_op OP1 <> tag_from_op OP2.
Proof. intros Hne Heq. apply Hne, tag_from_op_inj, Heq. Qed.

Lemma tag_from_op_injective_witness :
  op_plus <> op_increment /\ tag_from_op op_plus <> tag_from_op op_increment.
Proof.
  split; [discriminate |].
  apply (tag_from_op_injective op_plus op_increment); discriminate.
Defined.

(** ** [unwrap] and nesting *)

Lemma unwrap_not_wrapped (W : ty) : is_wrapped (unwrap W) = false.
Proof. induction W; simpl; auto. Qed.

Lemma unwrap_fixed (W : ty) : is_wrapped W = false -> unwrap W = W.
Proof. destruct W; simpl; intro H; try reflexivity; discriminate H. Qed.

Lemma unwrap_idempotent (W : ty) : unwrap (unwrap W) = unwrap W.
Proof. apply unwrap_fixed, unwrap_not_wrapped. Qed.

Lemma unwrap_nest (T : ty) (tags : list ty) : unwrap (nest T tags) = unwrap T.
Proof.
  revert T; induction tags as [|Tag tags IH]; intro T; simpl; [reflexivity |].
  rewrite IH. reflexivity.
Qed.

Lemma nest_app (T : ty) (l1 l2 : list ty) :
  nest T (l1 ++ l2) = nest (nest T l1) l2.
Proof. revert T; induction l1 as [|x l1 IH]; intro T; simpl; auto. Qed.

Lemma nest_snoc (T : ty) (l : list ty) (Tag : ty) :
  nest T (l ++ [Tag]) = Wrapped (nest T l) Tag.
Proof. rewrite nest_app. reflexivity. Qed.

Lemma wrap_depth_nest (T : ty) (tags : list ty) :
  wrap_depth (nest T tags) = wrap_depth T + List.length tags.
Proof.
  revert T; induction tags as [|Tag tags IH]; intro T; simpl; [lia |].
  rewrite IH. simpl. lia.
Qed.

(** Every type is a nest over its innermost type, which is not wrapped. *)
Lemma nest_decomposition (W : ty) :
  exists tags, W = nest (unwrap W) tags.
Proof.
  induction W; try (exists []; reflexivity).
  destruct IHW1 as [tags E]. exists (tags ++ [W2]).
  rewrite nest_snoc. simpl. rewrite <- E. reflexivity.
Qed.

Lemma nest_inj_rev (T : ty) (r1 r2 : list ty) :
  nest T (rev r1) = nest T (rev r2) -> r1 = r2.
Proof.
  revert r2; induction r1 as [|x r1 IH]; intros [|y r2] H; simpl in H.
  - reflexivity.
  - exfalso. rewrite nest_snoc in H.
    apply (f_equal wrap_depth) in H. simpl in H.
    rewrite wrap_depth_nest in H. lia.
  - exfalso. rewrite nest_snoc in H.
    apply (f_equal wrap_depth) in H. simpl in H.
    rewrite wrap_depth_nest in H. lia.
  - rewrite !nest_snoc in H. injection H as H1 H2.
    f_equal; [exact H2 | apply IH, H1].
Qed.

Lemma nest_inj (T : ty) (l1 l2 : list ty) : nest T l1 = nest T l2 -> l1 = l2.
Proof.
  intro H. rewrite <- (rev_involutive l1), <- (rev_involutive l2) in H.
  apply nest_inj_rev in H. apply (f_equal (@rev ty)) in H.
  rewrite !rev_involutive in H. exact H.
Qed.

(** C10: [unwrap] normalises a wrapper chain: its result is never a
    [wrapped<_, _>], it is idempotent, and at every nesting depth
    [wrapped<T, Tag>::type] is the innermost, non-wrapped type of [T]. *)
Theorem unwrap_normalises :
  (forall W, is_wrapped (unwrap W) = false) /\
  (forall W, unwrap (unwrap W) = unwrap W) /\
  (forall T0 tags Tag,
      is_wrapped T0 = false -> wrapped_type (nest T0 tags) Tag = T0).
Proof.
  split; [exact unwrap_not_wrapped | split; [exact unwrap_idempotent |]].
  intros T0 tags Tag H. unfold wrapped_type.
  rewrite unwrap_nest. apply unwrap_fixed, H.
Qed.

Lemma unwrap_normalises_witness :
  is_wrapped (Reference (Const (Struct "B"))) = false /\
  wrapped_type (nest (Reference (Const (Struct "B"))) [minus_tag; plus_tag])
    tilde_tag = Reference (Const (Struct "B")).
Proof.
  split; [reflexivity |].
  apply (proj2 (proj2 unwrap_normalises)
           (Reference (Const (Struct "B"))) [minus_tag; plus_tag] tilde_tag).
  reflexivity.
Defined.

(** ** Static types of operator runs *)

Lemma typeof_prefix_app (r1 r2 : list unop) (X : ty) :
  typeof_prefix (r1 ++ r2) X =
  match typeof_prefix r2 X with
  | Some Y => typeof_prefix r1 Y
  | None => None
  end.
Proof.
  induction r1 as [|OP r1 IH]; simpl.
  - destruct (typeof_prefix r2 X); reflexivity.
  - rewrite IH. destruct (typeof_prefix r2 X); reflexivity.
Qed.

Lemma typeof_prefix_wrapped (applied : list unop) (T Tag : ty) :
  typeof_prefix (rev applied) (Wrapped T Tag) =
  Some (nest (Wrapped T Tag) (map tag_from_op applied)).
Proof.
  revert T Tag; induction applied as [|OP applied IH]; intros T Tag; simpl.
  - reflexivity.
  - rewrite typeof_prefix_app. simpl.
    unfold BOOST_COPS_MAKE_WRAPPING_OPERATORS, BOOST_COPS_OPTAG. apply IH.
Qed.

Lemma typeof_prefix_type_finder (applied : list unop) (T : ty) :
  typeof_prefix (rev applied) (type_finder_f T) =
  Some (TypeFinderImpl (nest T (map tag_from_op applied))).
Proof.
  unfold type_finder_f.
  revert T; induction applied as [|OP applied IH]; intro T; simpl.
  - reflexivity.
  - rewrite typeof_prefix_app. simpl.
    unfold BOOST_COPS_MAKE_TYPE_FINDER, BOOST_COPS_OPTAG. apply IH.
Qed.

(** The wrapping operators build objects of the type the static rules
    give to the expression. *)
Lemma static_type_apply_prefix sem (run : list unop) (x : wrapped_object sem) :
  typeof_prefix run (static_type x) = Some (static_type (apply_prefix run x)).
Proof.
  induction run as [|OP run IH]; simpl; [reflexivity |].
  rewrite IH. reflexivity.
Qed.

Lemma static_type_apply_prefix_nest sem (applied : list unop)
    (x : wrapped_object sem) :
  static_type (apply_prefix (rev applied) x) =
  nest (static_type x) (map tag_from_op applied).
Proof.
  pose proof (static_type_apply_prefix sem (rev applied) x) as H.
  unfold static_type in H at 1. rewrite typeof_prefix_wrapped in H.
  injection H as H. symmetry. exact H.
Qed.

(** C2: a sequence [applied] of prefix operators (first applied first),
    applied to [type_finder<T>::f] or to a wrapped value, gives the nested
    wrapper with one level per operator, in application order, each tag
    one of the eight tag types; the nested type determines the sequence. *)
Theorem nested_type_encodes_operators (T : ty) (applied : list unop) :
  let tags := map tag_from_op applied in
  typeof_prefix (rev applied) (type_finder_f T) =
    Some (TypeFinderImpl (nest T tags)) /\
  member_type (TypeFinderImpl (nest T tags)) = Some (nest T tags) /\
  (forall Tag, typeof_prefix (rev applied) (Wrapped T Tag) =
               Some (nest (Wrapped T Tag) tags)) /\
  (forall sem (x : wrapped_object sem),
      static_type (apply_prefix (rev applied) x) = nest (static_type x) tags) /\
  Forall (fun Tag => In Tag tag_types) tags /\
  (forall applied',
      nest T (map tag_from_op applied') = nest T tags -> applied' = applied).
Proof.
  cbv zeta. repeat split.
  - apply typeof_prefix_type_finder.
  - intro Tag. apply typeof_prefix_wrapped.
  - intros sem x. apply static_type_apply_prefix_nest.
  - apply Forall_forall. intros Tag HIn. apply in_map_iff in HIn.
    destruct HIn as [OP [E _]]. subst Tag. apply tag_from_op_in_tag_types.
  - intros applied' H. apply map_tag_from_op_inj. eapply nest_inj. exact H.
Qed.

Lemma nested_type_encodes_operators_witness :
  nest (Struct "B") (map tag_from_op [op_minus; op_plus; op_tilde]) =
  nest (Struct "B") (map tag_from_op [op_minus; op_plus; op_tilde]) /\
  [op_minus; op_plus; op_tilde] = [op_minus; op_plus; op_tilde].
Proof.
  split; [reflexivity |].
  apply (proj2 (proj2 (proj2 (proj2 (proj2
           (nested_type_encodes_operators (Struct "B")
              [op_minus; op_plus; op_tilde])))))
           [op_minus; op_plus; op_tilde]).
  reflexivity.
Defined.

(** The header's example [/~+-]: the second parameter of the binary
    operator. *)
Example typeof_example :
  typeof_prefix [op_tilde; op_plus; op_minus]
    (type_finder_f (Reference (Const (Struct "B")))) =
  Some (TypeFinderImpl
          (Wrapped (Wrapped (Wrapped (Reference (Const (Struct "B")))
                      minus_tag) plus_tag) tilde_tag)).
Proof. reflexivity. Qed.

(** ** Values *)

Lemma value_apply_prefix sem (run : list unop) (x : wrapped_object sem) :
  existT sem
    (wrapped_type (static_T (apply_prefix run x)) (static_Tag (apply_prefix run x)))
    (value (the_wrapped (apply_prefix run x))) =
  existT sem (wrapped_type (static_T x) (static_Tag x)) (value (the_wrapped x)).
Proof.
  induction run as [|OP run IH]; simpl; [reflexivity |].
  exact IH.
Qed.

(** C8: whatever chain of wrapping operators is applied on top of
    [wrapped<T2, Tag>(b)], the outermost wrapper's [value] is [b], at the
    type of [b]. *)
Theorem wrapping_preserves_value sem (T2 Tag : ty)
    (b : sem (wrapped_type T2 Tag)) (run : list unop) :
  let outermost := apply_prefix run (pack (wrapped_of_type sem T2 Tag b)) in
  existT sem
    (wrapped_type (static_T outermost) (static_Tag outermost))
    (value (the_wrapped outermost)) =
  existT sem (wrapped_type T2 Tag) b.
Proof.
  cbv zeta. rewrite value_apply_prefix. reflexivity.
Qed.

(** ** The generated operators *)

Lemma ty_eqb_eq (x y : ty) : ty_eqb x y = true <-> x = y.
Proof.
  unfold ty_eqb. destruct (ty_eq_dec x y); split; intro H;
    try reflexivity; try assumption; try discriminate; contradiction.
Qed.

Lemma ty_eqb_refl (x : ty) : ty_eqb x x = true.
Proof. apply ty_eqb_eq. reflexivity. Qed.

Lemma binary_param2_type_nest (d : custom_op) :
  binary_param2_type d =
  Some (nest (unary_result_type d) (map tag_from_op (rev (ops d)))).
Proof.
  unfold binary_param2_type.
  replace (ops d ++ [firstop d]) with (rev (firstop d :: rev (ops d)))
    by (simpl; rewrite rev_involutive; reflexivity).
  rewrite typeof_prefix_type_finder. reflexivity.
Qed.

Lemma binary_param2_type_call_site (d : custom_op) :
  binary_param2_type d = typeof_prefix (ops d) (unary_result_type d).
Proof.
  rewrite binary_param2_type_nest. unfold unary_result_type.
  rewrite <- (rev_involutive (ops d)) at 2.
  rewrite typeof_prefix_wrapped. reflexivity.
Qed.

Lemma binary_operator_well_formed_unwrap (d : custom_op) :
  binary_operator_well_formed d = true ->
  unwrap (param2type d) = param2type d.
Proof.
  unfold binary_operator_well_formed. intro H.
  apply andb_true_iff in H. destruct H as [_ H]. apply ty_eqb_eq, H.
Qed.

(** An object initialises a parameter declared with its own type. *)
Lemma binds_declared (P : ty) : binds (expression_type P) P = true.
Proof.
  destruct P as [n | n | T | T | T | T Tag | T | T | T |]; simpl;
    try apply ty_eqb_refl.
  destruct T; simpl; apply ty_eqb_refl.
Qed.

Lemma expression_verdict_selected (own : string -> unop -> bool)
    (d : custom_op) (E : ty) :
  binds E (unary_param_type d) = true ->
  has_own_unary own (remove_const E) (firstop d) = false ->
  binary_operator_well_formed d = true ->
  expression_verdict own d E = selected.
Proof.
  intros Hb Ho Hw. unfold expression_verdict, unary_verdict.
  rewrite Hb, Ho, Hw, <- binary_param2_type_call_site.
  destruct (binary_param2_type d) as [N |] eqn:E1.
  - simpl. rewrite ty_eqb_refl. reflexivity.
  - rewrite binary_param2_type_nest in E1. discriminate E1.
Qed.

Section Conversions.

Variable sem : ty -> Type.

Lemma identity_conversion_eq (S D : ty) (e : S = D) :
  identity_conversion sem S D = Some (fun x => eq_rect S sem x D e).
Proof.
  unfold identity_conversion. destruct (ty_eq_dec S D) as [e' | n].
  - rewrite (UIP_dec ty_eq_dec e' e). reflexivity.
  - contradiction.
Qed.

Lemma identity_conversion_neq (S D : ty) :
  S <> D -> identity_conversion sem S D = None.
Proof.
  intro n. unfold identity_conversion.
  destruct (ty_eq_dec S D); [contradiction | reflexivity].
Qed.

Lemma existT_eq_rect (S D : ty) (e : S = D) (x : sem S) :
  existT sem D (eq_rect S sem x D e) = existT sem S x.
Proof. destruct e. reflexivity. Qed.

Lemma cast_of_existT (X Y : ty) (x : sem X) (y : sem Y) (e : X = Y) :
  existT sem X x = existT sem Y y -> eq_rect X sem x Y e = y.
Proof.
  destruct e. simpl. intro H.
  apply (inj_pair2_eq_dec ty ty_eq_dec) in H. exact H.
Qed.

End Conversions.

(** C1, as the code has it: when the generated unary operator takes the
    operand at the second parameter type itself (that type is neither
    fundamental nor a pointer), the class of the operand has no prefix
    operator [lastop] of its own, and the generated binary operator is
    well formed ([binop] can be overloaded by a free function, no
    parameter type is [void], the second is not a [wrapped] itself), the expression [a binop ops lastop b] calls the
    implementation exactly once, on [a] and [b], and has its result. *)
Theorem custom_expression_invokes_once sem (own : string -> unop -> bool)
    (d : custom_op)
    (implementation : sem (param1type d) -> sem (param2type d) -> sem (rettype d))
    (a : sem (param1type d)) (b : sem (param2type d)) :
  unary_param_type d = param2type d ->
  has_own_unary own (remove_const (expression_type (param2type d)))
    (firstop d) = false ->
  binary_operator_well_formed d = true ->
  exists m,
    custom_expression sem own d implementation a b = reaches m /\
    forall log, m log = (implementation a b, log ++ [mk_call sem d a b]).
Proof.
  intros H1 H3 H4. unfold custom_expression.
  pose proof (binary_operator_well_formed_unwrap d H4) as H2.
  rewrite expression_verdict_selected;
    [| rewrite H1; apply binds_declared | exact H3 | exact H4].
  rewrite (identity_conversion_eq sem _ _ (eq_sym H1)).
  unfold operator_firstop.
  assert (e2 : unary_param_type d =
               wrapped_type (param2type d) (BOOST_COPS_OPTAG (firstop d)))
    by (unfold wrapped_type; congruence).
  rewrite (identity_conversion_eq sem _ _ e2).
  set (w0 := eq_rect _ sem (eq_rect _ sem b _ (eq_sym H1)) _ e2).
  set (y := apply_prefix (ops d) (pack (wrapped_of_type sem _ _ w0))).
  assert (Hst : binary_param2_type d = Some (static_type y)).
  { rewrite binary_param2_type_nest. subst y.
    rewrite <- (rev_involutive (ops d)) at 2.
    rewrite static_type_apply_prefix_nest. reflexivity. }
  assert (Hv : existT sem (wrapped_type (static_T y) (static_Tag y))
                 (value (the_wrapped y)) =
               existT sem (param2type d) b).
  { subst y. rewrite value_apply_prefix. simpl. subst w0.
    rewrite !existT_eq_rect. reflexivity. }
  assert (e3 : wrapped_type (static_T y) (static_Tag y) = param2type d)
    by (exact (f_equal (@projT1 ty sem) Hv)).
  unfold operator_binop. rewrite Hst. simpl. rewrite ty_eqb_refl.
  rewrite (identity_conversion_eq sem _ _ e3).
  eexists. split; [reflexivity |].
  intro log. unfold invoke.
  rewrite (cast_of_existT sem _ _ _ _ e3 Hv). reflexivity.
Qed.

Lemma custom_expression_invokes_once_witness :
  unary_param_type example_op = param2type example_op /\
  has_own_unary (fun _ _ => false)
    (remove_const (expression_type (param2type example_op)))
    (firstop example_op) = false /\
  binary_operator_well_formed example_op = true /\
  exists m,
    custom_expression (fun _ => nat) (fun _ _ => false) example_op
      (fun a b => a * 2 + b * 3) 5 7 = reaches m /\
    forall log, m log = (31, log ++ [mk_call (fun _ => nat) example_op 5 7]).
Proof.
  split; [reflexivity | split; [reflexivity | split; [reflexivity |]]].
  apply (custom_expression_invokes_once (fun _ => nat) (fun _ _ => false)
           example_op (fun a b => a * 2 + b * 3) 5 7); reflexivity.
Defined.

(** C1, as stated, fails for a fundamental second parameter type: the
    generated unary operator takes a [cop_reference_wrapper<const int>],
    which an [int] operand does not initialise, so the expression on an
    operand of the second parameter type never reaches the
    implementation, whatever operators the classes of the program have. *)
Lemma custom_expression_int_operand :
  unary_param_type int_op = CopReferenceWrapper (Const (Fundamental "int")) /\
  resolves int_op (param2type int_op) "/" [op_tilde; op_plus; op_minus] = false /\
  forall own,
    custom_expression (fun _ => nat) own int_op (fun a b => a * 2 + b * 3) 5 7 =
    does_not_reach _.
Proof. repeat split. Qed.

(** ** Dispatch on the operator string *)

Lemma typeof_prefix_in_app (d : custom_op) (r1 r2 : list unop) (X : ty) :
  typeof_prefix_in d (r1 ++ r2) X =
  match typeof_prefix_in d r2 X with
  | Some Y => typeof_prefix_in d r1 Y
  | None => None
  end.
Proof.
  induction r1 as [|OP r1 IH]; simpl.
  - destruct (typeof_prefix_in d r2 X); reflexivity.
  - rewrite IH. destruct (typeof_prefix_in d r2 X); reflexivity.
Qed.

Lemma reasonable_type_cases (T_ : ty) :
  reasonable_type_for_unary_operator_overload T_ = T_ \/
  exists T, reasonable_type_for_unary_operator_overload T_ = CopReferenceWrapper T.
Proof.
  unfold reasonable_type_for_unary_operator_overload.
  destruct (is_fundamental _ || is_pointer _);
    [right; eexists; reflexivity | left; reflexivity].
Qed.

(** The generated unary operator is never viable on an object the header
    has wrapped around its own second parameter type. *)
Lemma initialises_nested (d : custom_op) (Tag : ty) (l : list ty) :
  initialises (nest (Wrapped (param2type d) Tag) l) (unary_param_type d) = false.
Proof.
  pose proof (wrap_depth_nest (Wrapped (param2type d) Tag) l) as Hd.
  simpl in Hd. unfold initialises.
  assert (Hw : is_wrapped (nest (Wrapped (param2type d) Tag) l) = true).
  { destruct (nest (Wrapped (param2type d) Tag) l); simpl in *; try lia; reflexivity. }
  destruct (nest (Wrapped (param2type d) Tag) l) as [| | | | |Y1 Y2| | | |] eqn:EY;
    try discriminate Hw.
  rewrite orb_false_r. apply not_true_is_false. intro H. apply ty_eqb_eq in H.
  unfold unary_param_type in H.
  destruct (reasonable_type_cases (param2type d)) as [E | [T E]]; rewrite E in H.
  - rewrite <- H in Hd. simpl in Hd. lia.
  - discriminate H.
Qed.

Lemma typeof_prefix_in_nested (d : custom_op) (Tag : ty) (applied : list unop) :
  typeof_prefix_in d (rev applied) (Wrapped (param2type d) Tag) =
  Some (nest (Wrapped (param2type d) Tag) (map tag_from_op applied)).
Proof.
  change (Wrapped (param2type d) Tag) with (nest (Wrapped (param2type d) Tag) []) at 1.
  change (map tag_from_op applied) with ([] ++ map tag_from_op applied).
  generalize (@nil ty) as l.
  induction applied as [|OP applied IH]; intro l; simpl.
  - rewrite app_nil_r. reflexivity.
  - rewrite typeof_prefix_in_app. simpl.
    unfold typeof_unary_in. rewrite initialises_nested.
    assert (E : typeof_unary OP (nest (Wrapped (param2type d) Tag) l) =
                Some (nest (Wrapped (param2type d) Tag) (l ++ [tag_from_op OP]))).
    { rewrite nest_snoc.
      pose proof (wrap_depth_nest (Wrapped (param2type d) Tag) l) as Hd.
      destruct (nest (Wrapped (param2type d) Tag) l); simpl in Hd; try lia.
      reflexivity. }
    destruct (unop_eq_dec OP (firstop d)); rewrite E, IH, <- app_assoc; reflexivity.
Qed.

Lemma typeof_unary_not_header (OP : unop) (X : ty) :
  is_header_class X = false -> typeof_unary OP X = None.
Proof. destruct X; simpl; intro H; try reflexivity; discriminate H. Qed.





End CustomOpsFacts.

(* ================================================================== *)
(** * Properties of the predicated-constructor header *)
(* ================================================================== *)

Module PredicatedConstructorFacts.
Import PredicatedConstructor.

Lemma constructions_app (t1 t2 : list event) :
  constructions (t1 ++ t2) = constructions t1 + constructions t2.
Proof. unfold constructions. rewrite filter_app, length_app. reflexivity. Qed.

Lemma destructions_app (t1 t2 : list event) :
  destructions (t1 ++ t2) = destructions t1 + destructions t2.
Proof. unfold destructions. rewrite filter_app, length_app. reflexivity. Qed.

Lemma constructions_statements (body : list nat) :
  constructions (map statement body) = 0.
Proof. induction body; simpl; auto. Qed.

Lemma destructions_statements (body : list nat) :
  destructions (map statement body) = 0.
Proof. induction body; simpl; auto. Qed.

Section Macros.

Variables sizeof_obj alignment_of_obj : N.
Variable place : storage_type -> N -> addr.

(** What the two declarations do, by the condition. *)
Lemma storage_declarations_true (w : world) :
  let mem := mem_address sizeof_obj alignment_of_obj place w in
  storage_declarations sizeof_obj alignment_of_obj place true w =
  Some ((mem, predicated_constructee_storage_ctor (ptr mem)),
        mk_world (trace w ++ [construct mem]) (mem + sizeof_obj)).
Proof. reflexivity. Qed.

Lemma storage_declarations_false (w : world) :
  let mem := mem_address sizeof_obj alignment_of_obj place w in
  storage_declarations sizeof_obj alignment_of_obj place false w =
  Some ((mem, predicated_constructee_storage_ctor null),
        mk_world (trace w) (mem + sizeof_obj)).
Proof. reflexivity. Qed.

(** C3: a scope that uses [BOOST_PREDICATED_ANONYMOUS_CONSTRUCTOR] runs
    to its end; when the condition is true the constructor runs once, at
    the macro, and the destructor once, on the same object, as the last
    thing the scope does; when it is false neither runs. *)
Theorem anonymous_scope_constructs_iff_condition
    (condition : bool) (body : list nat) (w : world) :
  let mem := mem_address sizeof_obj alignment_of_obj place w in
  exists w',
    anonymous_scope sizeof_obj alignment_of_obj place condition body w =
      Some (tt, w') /\
    trace w' =
      trace w ++ (if condition then [construct mem] else []) ++
      map statement body ++
      (if condition then [destroy mem] else []) /\
    constructions (trace w') =
      constructions (trace w) + (if condition then 1 else 0) /\
    destructions (trace w') =
      destructions (trace w) + (if condition then 1 else 0).
Proof.
  cbv zeta. destruct condition.
  - eexists. split; [reflexivity |]. simpl trace.
    split; [rewrite <- !app_assoc; reflexivity |].
    rewrite !constructions_app, !destructions_app,
      constructions_statements, destructions_statements.
    unfold constructions, destructions. simpl. split; lia.
  - eexists. split; [reflexivity |]. simpl trace.
    split; [rewrite app_nil_r; reflexivity |].
    rewrite !constructions_app, !destructions_app,
      constructions_statements, destructions_statements.
    unfold constructions, destructions. simpl. split; lia.
Qed.

(** C9: with a false condition the guard of
    [BOOST_PREDICATED_CONSTRUCTOR] holds the null pointer; [operator->]
    hands it out as it is, [operator*] dereferences it, and the
    initialisation of the reference [name], which applies [operator*],
    is undefined. *)
Theorem named_constructor_false_dereferences_null (w : world) :
  (exists mem w',
      storage_declarations sizeof_obj alignment_of_obj place false w =
        Some ((mem, predicated_constructee_storage_ctor null), w')) /\
  (forall s, operator_arrow s = _t s) /\
  (forall s, operator_star s = dereference (_t s)) /\
  operator_arrow (predicated_constructee_storage_ctor null) = null /\
  operator_star (predicated_constructee_storage_ctor null) = None /\
  BOOST_PREDICATED_CONSTRUCTOR sizeof_obj alignment_of_obj place false w = None /\
  (forall body,
      named_scope sizeof_obj alignment_of_obj place false body w = None).
Proof.
  split; [eexists; eexists; reflexivity |]. repeat split.
Qed.

(** With a true condition [name] is the object in the raw memory. *)
Lemma named_constructor_true (w : world) :
  let mem := mem_address sizeof_obj alignment_of_obj place w in
  BOOST_PREDICATED_CONSTRUCTOR sizeof_obj alignment_of_obj place true w =
  Some ((mem, predicated_constructee_storage_ctor (ptr mem), mem),
        mk_world (trace w ++ [construct mem]) (mem + sizeof_obj)).
Proof. reflexivity. Qed.

(** The compiler places a local at an address its type's alignment
    divides. *)
Hypothesis place_aligned :
  forall st top, N.divide (st_align st) (place st top).

(** C6: the raw memory of both macros is a local of the scope, of size
    [sizeof(obj)] and alignment [alignment_of<obj>]; the object is
    constructed at its address and nowhere else, and the scope gives the
    memory back when it ends. *)
Theorem predicated_storage_fits_and_is_aligned
    (condition : bool) (body : list nat) (w : world) :
  (sizeof_obj <= st_size (mem_type sizeof_obj alignment_of_obj))%N /\
  st_align (mem_type sizeof_obj alignment_of_obj) = alignment_of_obj /\
  (exists mem storage w',
      BOOST_PREDICATED_ANONYMOUS_CONSTRUCTOR sizeof_obj alignment_of_obj
        place condition w = Some ((mem, storage), w') /\
      N.divide alignment_of_obj mem /\
      _t storage = (if condition then ptr mem else null) /\
      trace w' = trace w ++ (if condition then [construct mem] else []) /\
      frame_top w' = (mem + sizeof_obj)%N) /\
  (condition = true ->
   exists mem storage w',
      BOOST_PREDICATED_CONSTRUCTOR sizeof_obj alignment_of_obj
        place condition w = Some ((mem, storage, mem), w') /\
      N.divide alignment_of_obj mem /\
      _t storage = ptr mem /\
      trace w' = trace w ++ [construct mem] /\
      frame_top w' = (mem + sizeof_obj)%N) /\
  (exists w',
      anonymous_scope sizeof_obj alignment_of_obj place condition body w =
        Some (tt, w') /\
      frame_top w' = frame_top w).
Proof.
  split; [simpl; lia |]. split; [reflexivity |]. split; [| split].
  - exists (mem_address sizeof_obj alignment_of_obj place w).
    destruct condition; eexists; eexists;
      (split; [reflexivity |]);
      (split; [apply (place_aligned (mem_type sizeof_obj alignment_of_obj)) |]);
      simpl; repeat split; rewrite ?app_nil_r; reflexivity.
  - intro Hc. subst condition.
    exists (mem_address sizeof_obj alignment_of_obj place w). eexists; eexists.
    split; [reflexivity |].
    split; [apply (place_aligned (mem_type sizeof_obj alignment_of_obj)) |].
    simpl; repeat split.
  - destruct condition; eexists; split; reflexivity.
Qed.

End Macros.

Lemma round_up_aligned (st : storage_type) (top : N) :
  N.divide (st_align st) (round_up st top).
Proof. unfold round_up. apply N.divide_factor_l. Qed.

Lemma predicated_storage_fits_and_is_aligned_witness :
  (forall st top, N.divide (st_align st) (round_up st top)) /\
  exists mem storage w',
    BOOST_PREDICATED_CONSTRUCTOR 12 4 round_up true (mk_world [] 1001) =
      Some ((mem, storage, mem), w') /\
    N.divide 4 mem /\
    _t storage = ptr mem /\
    trace w' = [] ++ [construct mem] /\
    frame_top w' = (mem + 12)%N.
Proof.
  split; [exact round_up_aligned |].
  apply (proj1 (proj2 (proj2 (proj2
           (predicated_storage_fits_and_is_aligned 12 4 round_up
              round_up_aligned true [] (mk_world [] 1001)))))).
  reflexivity.
Defined.

Example anonymous_scope_example :
  anonymous_scope 12 4 round_up true [7; 8] (mk_world [] 1001) =
  Some (tt, mk_world [construct 1004%N; statement 7; statement 8; destroy 1004%N] 1001).
Proof. reflexivity. Qed.

End PredicatedConstructorFacts.

(* ================================================================== *)
(** * More on custom_ops.hpp *)
(* ================================================================== *)

Module CustomOpsMore.
Import CustomOps CustomOpsFacts.

(** ** The parameter type of the generated unary operator *)

Lemma reasonable_type_unfold (T_ : ty) :
  reasonable_type_for_unary_operator_overload T_ =
  if is_fundamental (reasonable_T T_) || is_pointer (reasonable_T T_)
  then CopReferenceWrapper (reasonable_T T_) else T_.
Proof. reflexivity. Qed.

Lemma reasonable_T_behind_reference (T_ : ty) :
  is_fundamental (reasonable_T T_) = is_fundamental (remove_reference T_) /\
  is_pointer (reasonable_T T_) = is_pointer (remove_reference T_).
Proof. destruct T_; split; reflexivity. Qed.

(** X1: whatever the second parameter type, the parameter of the
    generated unary operator is neither fundamental nor a pointer, not
    even behind a reference, and the metafunction leaves its own results
    unchanged. *)
Theorem reasonable_type_is_overloadable (T_ : ty) :
  let R := reasonable_type_for_unary_operator_overload T_ in
  is_fundamental (remove_reference R) = false /\
  is_pointer (remove_reference R) = false /\
  reasonable_type_for_unary_operator_overload R = R.
Proof.
  cbv zeta. rewrite reasonable_type_unfold.
  destruct (reasonable_T_behind_reference T_) as [Hf Hp].
  destruct (is_fundamental (reasonable_T T_) || is_pointer (reasonable_T T_)) eqn:E.
  - repeat split.
  - apply orb_false_iff in E. destruct E as [Ef Ep].
    rewrite Hf in Ef. rewrite Hp in Ep.
    split; [exact Ef | split; [exact Ep |]].
    rewrite reasonable_type_unfold, Hf, Hp, Ef, Ep. reflexivity.
Qed.

Lemma bare_operand_does_not_initialise (T_ : ty) :
  is_fundamental (reasonable_T T_) || is_pointer (reasonable_T T_) = true ->
  reasonable_type_for_unary_operator_overload T_ =
    CopReferenceWrapper (reasonable_T T_) /\
  reasonable_type_for_unary_operator_overload T_ <> T_ /\
  initialises T_ (reasonable_type_for_unary_operator_overload T_) = false /\
  is_header_class T_ = false.
Proof.
  intro H. rewrite reasonable_type_unfold, H.
  split; [reflexivity |].
  destruct T_; simpl in H; try discriminate H;
    (split; [discriminate |]); (split; [| reflexivity]);
    unfold initialises, ty_eqb;
    match goal with
    | |- context [ty_eq_dec ?x ?y] =>
        destruct (ty_eq_dec x y) as [E | _]; [discriminate E | reflexivity]
    end.
Qed.

Lemma fundamental_operand_is_not_taken (E : ty) (T : ty) :
  is_fundamental E || is_pointer E = true ->
  binds E (CopReferenceWrapper T) = false /\
  converts E (CopReferenceWrapper T) = false.
Proof.
  intro H.
  assert (Hc : forall X, is_fundamental X || is_pointer X = true ->
                 ty_eqb X (CopReferenceWrapper T) = false /\
                 match X with
                 | ReferenceWrapper T0 => ty_eqb T0 T
                 | _ => false
                 end = false).
  { intros X HX. destruct X; simpl in HX; try discriminate HX;
      (split; [| reflexivity]); apply not_true_is_false; intro E0;
      apply ty_eqb_eq in E0; discriminate E0. }
  unfold binds, converts.
  destruct E as [n | n | X | X | X | X Tag | X | X | X |];
    simpl in H; try discriminate H.
  - apply (Hc (Fundamental n)). reflexivity.
  - apply (Hc (Pointer X)). reflexivity.
  - simpl. apply Hc, H.
Qed.

Lemma bare_operand_verdict (own : string -> unop -> bool) (d : custom_op) :
  is_fundamental (reasonable_T (param2type d)) ||
    is_pointer (reasonable_T (param2type d)) = true ->
  expression_verdict own d (expression_type (param2type d)) = not_selected.
Proof.
  intro H. unfold expression_verdict, unary_verdict.
  destruct (bare_operand_does_not_initialise (param2type d) H) as [ER _].
  fold (unary_param_type d) in ER. rewrite ER.
  destruct (reasonable_T_behind_reference (param2type d)) as [Ef Ep].
  rewrite Ef, Ep in H. fold (expression_type (param2type d)) in H.
  destruct (fundamental_operand_is_not_taken
              (expression_type (param2type d))
              (reasonable_T (param2type d)) H) as [Hb Hc].
  rewrite Hb, Hc, H. reflexivity.
Qed.

(** X2: when the second parameter type is fundamental or a pointer,
    directly or behind a reference, an operand of that very type selects
    the generated operator with no operator string at all, and the
    expression on it never reaches the implementation. *)
Theorem bare_fundamental_operand_never_resolves (d : custom_op) :
  is_fundamental (reasonable_T (param2type d)) ||
    is_pointer (reasonable_T (param2type d)) = true ->
  (forall used_binop used_run,
      resolves d (param2type d) used_binop used_run = false) /\
  (forall sem own implementation a b,
      custom_expression sem own d implementation a b = does_not_reach _).
Proof.
  intro H.
  destruct (bare_operand_does_not_initialise (param2type d) H)
    as [_ [Hne [Hi Hh]]].
  split.
  - intros used_binop used_run. unfold resolves.
    apply andb_false_iff. right.
    rewrite binary_param2_type_nest.
    destruct used_run as [|OP0 run0 _] using rev_ind.
    + simpl. apply not_true_is_false. intro E. apply ty_eqb_eq in E.
      pose proof (wrap_depth_nest (unary_result_type d)
                    (map tag_from_op (rev (ops d)))) as Hd.
      rewrite <- E in Hd. unfold unary_result_type in Hd.
      destruct (param2type d); simpl in Hd, Hh; try lia; discriminate Hh.
    + rewrite typeof_prefix_in_app. simpl. unfold typeof_unary_in.
      fold (unary_param_type d) in Hi. rewrite Hi.
      rewrite (typeof_unary_not_header OP0 _ Hh).
      destruct (unop_eq_dec OP0 (firstop d)); reflexivity.
  - intros sem own implementation a b. unfold custom_expression.
    rewrite (bare_operand_verdict own d H). reflexivity.
Qed.

Lemma bare_fundamental_operand_never_resolves_witness :
  is_fundamental (reasonable_T (param2type int_op)) ||
    is_pointer (reasonable_T (param2type int_op)) = true /\
  resolves int_op (param2type int_op) "/" [op_minus] = false.
Proof.
  split; [reflexivity |].
  apply (proj1 (bare_fundamental_operand_never_resolves int_op eq_refl)).
Defined.

(** X3: when the second parameter type is fundamental or a pointer, an
    operand of type [reference_wrapper<T>], what [boost::ref] and
    [boost::cref] return, converts to the parameter of the generated
    unary operator through the constructor of [cop_reference_wrapper];
    where no built-in operator [lastop] takes a [T] (the built-in one
    would be as good a match, through the wrapper's conversion to [T&]),
    the expression [a binop ops lastop b] on such an operand calls the
    generated binary operator, that operator being well formed. *)
Theorem reference_wrapper_operand_dispatches
    (own : string -> unop -> bool) (d : custom_op) :
  is_fundamental (reasonable_T (param2type d)) ||
    is_pointer (reasonable_T (param2type d)) = true ->
  builtin_may_apply (reasonable_T (param2type d)) (firstop d) = false ->
  binary_operator_well_formed d = true ->
  expression_verdict own d (ReferenceWrapper (reasonable_T (param2type d))) =
  selected.
Proof.
  intros H Hb Hw. unfold expression_verdict, unary_verdict.
  destruct (bare_operand_does_not_initialise (param2type d) H) as [ER _].
  fold (unary_param_type d) in ER. rewrite ER.
  assert (E1 : binds (ReferenceWrapper (reasonable_T (param2type d)))
                 (CopReferenceWrapper (reasonable_T (param2type d))) = false).
  { unfold binds. simpl. apply not_true_is_false. intro E0.
    apply ty_eqb_eq in E0. discriminate E0. }
  assert (E2 : converts (ReferenceWrapper (reasonable_T (param2type d)))
                 (CopReferenceWrapper (reasonable_T (param2type d))) = true).
  { unfold converts. simpl. apply ty_eqb_refl. }
  rewrite E1, E2. simpl remove_const. cbv iota. rewrite Hb, Hw.
  rewrite <- binary_param2_type_call_site, binary_param2_type_nest.
  simpl. rewrite ty_eqb_refl. reflexivity.
Qed.

Lemma reference_wrapper_operand_dispatches_witness :
  is_fundamental (reasonable_T (param2type int_star_op)) ||
    is_pointer (reasonable_T (param2type int_star_op)) = true /\
  builtin_may_apply (reasonable_T (param2type int_star_op))
    (firstop int_star_op) = false /\
  binary_operator_well_formed int_star_op = true /\
  expression_verdict (fun _ _ => false) int_star_op
    (ReferenceWrapper (Const (Fundamental "int"))) = selected.
Proof.
  split; [reflexivity | split; [reflexivity | split; [reflexivity |]]].
  apply (reference_wrapper_operand_dispatches (fun _ _ => false) int_star_op);
    reflexivity.
Defined.

(** With [-] as the last operator the built-in one competes, and the
    model leaves the call undecided. *)
Example reference_wrapper_operand_minus :
  expression_verdict (fun _ _ => false) int_op
    (ReferenceWrapper (Const (Fundamental "int"))) = undecided.
Proof. reflexivity. Qed.

(** ** The type finder and the wrapping operators *)

Lemma type_finder_mirrors_wrapping (T : ty) (OP : unop) (run : list unop) :
  match typeof_prefix (run ++ [OP]) (type_finder_f T) with
  | Some X => member_type X
  | None => None
  end = typeof_prefix run (Wrapped T (BOOST_COPS_OPTAG OP)).
Proof.
  replace (run ++ [OP]) with (rev (OP :: rev run))
    by (simpl; rewrite rev_involutive; reflexivity).
  rewrite typeof_prefix_type_finder. simpl.
  rewrite <- (rev_involutive run) at 2.
  rewrite typeof_prefix_wrapped. reflexivity.
Qed.

(** X4: the type the binary operator declares for its right operand,
    found by running the operator string on [type_finder<param2type>::f],
    is the static type of what the call site builds: the intermediate
    operators, resolved as the header's wrapping operators, on the result
    of the generated unary operator. *)
Theorem binary_parameter_is_the_call_site_type (d : custom_op) :
  binary_param2_type d = typeof_prefix (ops d) (unary_result_type d) /\
  forall sem (w : wrapped sem (param2type d) (BOOST_COPS_OPTAG (firstop d))),
    binary_param2_type d = Some (static_type (apply_prefix (ops d) (pack w))).
Proof.
  assert (E : binary_param2_type d = typeof_prefix (ops d) (unary_result_type d))
    by apply type_finder_mirrors_wrapping.
  split; [exact E |].
  intros sem w. rewrite E.
  exact (static_type_apply_prefix sem (ops d) (pack w)).
Qed.

(** X5: two definitions whose second parameter types are not [wrapped]
    themselves declare the same right operand type only if they have the
    same second parameter type and the same run of prefix operators. *)
Theorem distinct_runs_declare_distinct_overloads (d1 d2 : custom_op) :
  unwrap (param2type d1) = param2type d1 ->
  unwrap (param2type d2) = param2type d2 ->
  binary_param2_type d1 = binary_param2_type d2 ->
  param2type d1 = param2type d2 /\ ops d1 = ops d2 /\ firstop d1 = firstop d2.
Proof.
  intros H1 H2 E. rewrite !binary_param2_type_nest in E.
  injection E as E.
  assert (EP : param2type d1 = param2type d2).
  { apply (f_equal unwrap) in E. rewrite !unwrap_nest in E.
    simpl in E. congruence. }
  split; [exact EP |].
  unfold unary_result_type in E. rewrite EP in E.
  change (nest (param2type d2)
            (map tag_from_op (firstop d1 :: rev (ops d1))) =
          nest (param2type d2)
            (map tag_from_op (firstop d2 :: rev (ops d2)))) in E.
  apply nest_inj, map_tag_from_op_inj in E.
  injection E as Ef Eo.
  apply (f_equal (@rev unop)) in Eo. rewrite !rev_involutive in Eo.
  split; assumption.
Qed.

Lemma distinct_runs_declare_distinct_overloads_witness :
  unwrap (param2type example_op) = param2type example_op /\
  unwrap (param2type example_op) = param2type example_op /\
  binary_param2_type example_op = binary_param2_type example_op /\
  param2type example_op = param2type example_op /\
  ops example_op = ops example_op /\ firstop example_op = firstop example_op.
Proof.
  split; [reflexivity | split; [reflexivity | split; [reflexivity |]]].
  apply (distinct_runs_declare_distinct_overloads example_op example_op);
    reflexivity.
Defined.

(** X6: whatever the run of operators, the member [value] of the right
    operand of the binary operator has the type
    [unwrap<param2type>::type]. *)
Theorem binary_parameter_value_type (d : custom_op) :
  match binary_param2_type d with
  | Some X => member_type X
  | None => None
  end = Some (unwrap (param2type d)).
Proof.
  rewrite binary_param2_type_nest.
  pose proof (unwrap_nest (unary_result_type d)
                (map tag_from_op (rev (ops d)))) as Hu.
  pose proof (wrap_depth_nest (unary_result_type d)
                (map tag_from_op (rev (ops d)))) as Hd.
  destruct (nest (unary_result_type d) (map tag_from_op (rev (ops d))));
    simpl in Hd; try lia.
  simpl in *. unfold wrapped_type. rewrite Hu. reflexivity.
Qed.





(** One operator on [tag_from_op] is how the header names a tag. *)
Example typeof_tag_from_op (OP : unop) :
  typeof_prefix [OP] TagFromOp = Some (BOOST_COPS_OPTAG OP).
Proof. reflexivity. Qed.

(** X8: in a program with the definition, the generated unary operator
    never takes an object that is already wrapped: a run of operators on
    its result is resolved by the header's wrapping operators alone, even
    where the run repeats the last operator. *)
Theorem generated_operator_leaves_wrapped_alone (d : custom_op) (run : list unop) :
  typeof_prefix_in d run (unary_result_type d) =
  typeof_prefix run (unary_result_type d).
Proof.
  rewrite <- (rev_involutive run). unfold unary_result_type.
  rewrite typeof_prefix_in_nested, typeof_prefix_wrapped. reflexivity.
Qed.

(** ** Runs of wrapping operators compose *)

Lemma apply_prefix_app sem (r1 r2 : list unop) (x : wrapped_object sem) :
  apply_prefix (r1 ++ r2) x = apply_prefix r1 (apply_prefix r2 x).
Proof.
  induction r1 as [|OP r1 IH]; simpl; [reflexivity |].
  rewrite IH. reflexivity.
Qed.

(** X9: applying a run of wrapping operators written in two parts is
    applying the right part, then the left part; the object built has the
    static type of the whole run, with one more level of [wrapped] per
    operator. *)
Theorem wrapping_runs_compose sem (r1 r2 : list unop) (x : wrapped_object sem) :
  apply_prefix (r1 ++ r2) x = apply_prefix r1 (apply_prefix r2 x) /\
  typeof_prefix (r1 ++ r2) (static_type x) =
    Some (static_type (apply_prefix r1 (apply_prefix r2 x))) /\
  wrap_depth (static_type (apply_prefix (r1 ++ r2) x)) =
    wrap_depth (static_type x) + List.length r1 + List.length r2.
Proof.
  split; [apply apply_prefix_app |]. split.
  - rewrite <- apply_prefix_app. apply static_type_apply_prefix.
  - rewrite <- (rev_involutive (r1 ++ r2)).
    rewrite static_type_apply_prefix_nest, wrap_depth_nest.
    rewrite length_map, length_rev, length_app. lia.
Qed.

End CustomOpsMore.

(* ================================================================== *)
(** * More on the predicated-constructor header *)
(* ================================================================== *)

Module PredicatedConstructorMore.
Import PredicatedConstructor PredicatedConstructorFacts.

Section Macros.

Variables sizeof_obj alignment_of_obj : N.
Variable place : storage_type -> N -> addr.



Lemma rest_of_block_trace (conditions : list bool) (body : list nat) (w : world) :
  exists mems top',
    rest_of_block sizeof_obj alignment_of_obj place conditions body w =
      Some (tt, mk_world
                  (trace w ++ map construct mems ++ map statement body ++
                   map destroy (rev mems))
                  top') /\
    List.length mems = List.length (filter (fun c => c) conditions).
Proof.
  revert w. induction conditions as [|condition conditions IH]; intro w.
  - exists [], (frame_top w). simpl. rewrite app_nil_r. split; reflexivity.
  - change (rest_of_block sizeof_obj alignment_of_obj place
              (condition :: conditions) body)
      with (bind (storage_declarations sizeof_obj alignment_of_obj place condition)
              (fun locals =>
                 bind (rest_of_block sizeof_obj alignment_of_obj place
                         conditions body)
                   (fun _ => predicated_constructee_storage_dtor (snd locals)))).
    unfold bind at 1. destruct condition.
    + pose proof (storage_declarations_true sizeof_obj alignment_of_obj place w) as E.
      cbv zeta in E. rewrite E. clear E.
      set (mem := mem_address sizeof_obj alignment_of_obj place w).
      destruct (IH (mk_world (trace w ++ [construct mem]) (mem + sizeof_obj)%N))
        as [mems [top' [E L]]].
      exists (mem :: mems), top'. unfold bind. rewrite E.
      unfold predicated_constructee_storage_dtor, emit. simpl.
      split; [| rewrite L; reflexivity].
      rewrite map_app. simpl. rewrite <- !app_assoc. reflexivity.
    + pose proof (storage_declarations_false sizeof_obj alignment_of_obj place w) as E.
      cbv zeta in E. rewrite E. clear E.
      set (mem := mem_address sizeof_obj alignment_of_obj place w).
      destruct (IH (mk_world (trace w) (mem + sizeof_obj)%N))
        as [mems [top' [E L]]].
      exists mems, top'. unfold bind. rewrite E.
      unfold predicated_constructee_storage_dtor, ret. simpl.
      split; [reflexivity | exact L].
Qed.

(** X11: a block with several uses of the anonymous predicated macro runs
    to its end and leaves the frame as it found it; it constructs one
    object per true condition, in the order of the uses, and after its
    other statements destroys exactly those objects, in the reverse
    order. *)
Theorem block_destroys_in_reverse_order
    (conditions : list bool) (body : list nat) (w : world) :
  exists mems w',
    block sizeof_obj alignment_of_obj place conditions body w = Some (tt, w') /\
    frame_top w' = frame_top w /\
    trace w' =
      trace w ++ map construct mems ++ map statement body ++
      map destroy (rev mems) /\
    List.length mems = List.length (filter (fun c => c) conditions) /\
    constructions (trace w') = constructions (trace w) + List.length mems /\
    destructions (trace w') = destructions (trace w) + List.length mems.
Proof.
  destruct (rest_of_block_trace conditions body w) as [mems [top' [E L]]].
  exists mems. eexists. unfold block, bind, get_frame_top.
  rewrite E. simpl. split; [reflexivity |].
  split; [reflexivity |]. split; [reflexivity |]. split; [exact L |].
  simpl trace.
  rewrite !constructions_app, !destructions_app,
    constructions_statements, destructions_statements.
  assert (Hc : forall l, constructions (map construct l) = List.length l /\
                         constructions (map destroy l) = 0 /\
                         destructions (map construct l) = 0 /\
                         destructions (map destroy l) = List.length l).
  { unfold constructions, destructions.
    induction l as [|a l [H1 [H2 [H3 H4]]]]; simpl; [repeat split |].
    rewrite H1, H2, H3, H4. repeat split. }
  destruct (Hc mems) as [H1 [_ [H3 _]]].
  destruct (Hc (rev mems)) as [_ [H2 [_ H4]]].
  rewrite H1, H2, H3, H4, length_rev. split; lia.
Qed.

End Macros.


Example block_example :
  block 12 4 round_up [true; false; true] [7] (mk_world [] 1001) =
  Some (tt, mk_world
              [construct 1004%N; construct 1028%N; statement 7;
               destroy 1028%N; destroy 1004%N] 1001).
Proof. reflexivity. Qed.

End PredicatedConstructorMore.
